(** * Shared puller state and receive-only revert (lib/model)

    A shallow embedding of [lib/model/sharedpullerstate.go] (the per-file
    pull tracker) and of the receive-only folder's [Revert] with its
    [deleteQueue], followed by the properties proved about them.

    Conventions.
    - Go's [int] and [int64] are 64-bit two's complement integers; they are
      represented by [Z] and every arithmetic operation wraps explicitly.
    - A Go [error] value is [option error]: [None] is [nil].
    - Calls that leave the package (filesystem, clock, deletion handler,
      metadata store) are recorded in a history of events; what the outside
      world answers is a function of that history, supplied by a [Platform]. *)

From Stdlib Require Import ZArith List String Ascii Bool Lia.
From Stdlib Require Import Permutation Sorted.
Import ListNotations.
Local Open Scope Z_scope.

(** ** Machine integers *)

Module GoInt.

Definition min_int : Z := - 2 ^ 63.
Definition max_int : Z := 2 ^ 63 - 1.

(** Membership in the range of [int] / [int64]. *)
Definition in_int (x : Z) : Prop := min_int <= x <= max_int.

(** Two's complement wrap-around at 64 bits. *)
Definition wrap (x : Z) : Z := (x + 2 ^ 63) mod 2 ^ 64 - 2 ^ 63.

(** Wrap-around at 32 bits, for the [int32(...)] conversion. *)
Definition wrap32 (x : Z) : Z := (x + 2 ^ 31) mod 2 ^ 32 - 2 ^ 31.

Definition add (x y : Z) : Z := wrap (x + y).
Definition sub (x y : Z) : Z := wrap (x - y).
Definition mul (x y : Z) : Z := wrap (x * y).

(** Go's [/] truncates toward zero; the divisor is checked by the caller
    (a zero divisor is a run-time panic). *)
Definition quot (x y : Z) : Z := wrap (Z.quot x y).

(** [x &^ y], bit clear. *)
Definition andnot (x y : Z) : Z := Z.land x (Z.lnot y).

End GoInt.

(** ** Errors *)

Module errors.

(** A non-nil error: a message, possibly wrapping a cause
    ([errors.Wrap(cause, msg)]). *)
Inductive error : Type :=
| New (msg : string)
| Wrap (cause : error) (msg : string).

Fixpoint eqb (a b : error) : bool :=
  match a, b with
  | New m, New n => String.eqb m n
  | Wrap c m, Wrap d n => eqb c d && String.eqb m n
  | _, _ => false
  end.

End errors.

Abbreviation error := errors.error.

(** ** File records (lib/protocol) *)

Module protocol.

(** One entry of a version vector. *)
Record Counter : Type := { ID : Z; Value : Z }.

(** [protocol.Vector]; [Vector{}] is the vector without counters. *)
Record Vector : Type := { Counters : list Counter }.

Definition emptyVector : Vector := {| Counters := [] |}.

(** Modelled from the spec: the record type of a file record (file,
    directory or symbolic link); the enumeration is declared in
    lib/protocol, which is not part of the source. *)
Inductive FileInfoType : Type :=
| FileInfoTypeFile
| FileInfoTypeDirectory
| FileInfoTypeSymlink.

(** The fields of [protocol.FileInfo] that the source reads or writes;
    a composite literal leaves every field it does not name at zero. *)
Record FileInfo : Type := {
  Name : string;
  Type_ : FileInfoType;
  Size : Z;
  Permissions : Z;
  ModifiedS : Z;
  ModifiedNs : Z;
  ModifiedBy : Z;
  Deleted : bool;
  Version : Vector;
  Gid : Z;
  Uid : Z;
  LocalFlags : Z
}.

Definition set_Version (v : Vector) (fi : FileInfo) : FileInfo :=
  {| Name := Name fi; Type_ := Type_ fi; Size := Size fi;
     Permissions := Permissions fi; ModifiedS := ModifiedS fi;
     ModifiedNs := ModifiedNs fi; ModifiedBy := ModifiedBy fi;
     Deleted := Deleted fi; Version := v; Gid := Gid fi; Uid := Uid fi;
     LocalFlags := LocalFlags fi |}.

Definition set_LocalFlags (x : Z) (fi : FileInfo) : FileInfo :=
  {| Name := Name fi; Type_ := Type_ fi; Size := Size fi;
     Permissions := Permissions fi; ModifiedS := ModifiedS fi;
     ModifiedNs := ModifiedNs fi; ModifiedBy := ModifiedBy fi;
     Deleted := Deleted fi; Version := Version fi; Gid := Gid fi;
     Uid := Uid fi; LocalFlags := x |}.

(** Modelled from the spec: [IsDirectory] and [IsSymlink] test the record
    type; the methods are declared in lib/protocol. *)
Definition IsDirectory (fi : FileInfo) : bool :=
  match Type_ fi with FileInfoTypeDirectory => true | _ => false end.

Definition IsSymlink (fi : FileInfo) : bool :=
  match Type_ fi with FileInfoTypeSymlink => true | _ => false end.

(** Modelled from the spec: a record is "changed locally in receive only
    mode" when the [FlagLocalReceiveOnly] bit [flag] of its local flags is
    set; the method is declared in lib/protocol. *)
Definition IsReceiveOnlyChanged (flag : Z) (fi : FileInfo) : bool :=
  negb (Z.land (LocalFlags fi) flag =? 0).

(** [protocol.BlockInfo], of which only the offset is read. *)
Record BlockInfo : Type := { Offset : Z; BlockInfo_Size : Z }.

End protocol.

Import protocol.

(** ** Ignore patterns (lib/ignore) *)

Module ignore.

(** What [Matcher.Match] reports for a path. *)
Record Result : Type := { IsIgnored : bool; IsDeletable : bool }.

End ignore.

(** ** The outside world *)

(** An open file ([fs.File]) is identified by a handle. *)
Definition File : Type := nat.

(** [time.Time], as far as the source looks at it. *)
Record Time : Type := { Unix : Z }.

Inductive folderState : Type := FolderIdle | FolderScanning.

(** Calls that leave the modelled code. Logging ([l.Debugf], [l.Infof])
    and the locks are not modelled: the code is run one call at a time. *)
Inductive event : Type :=
| Chmod (name : string) (mode : Z)
| Lchown (name : string) (uid gid : Z)
| OpenFile (name : string) (flags mode : Z)
| Hide (name : string)
| Unhide (name : string)
| Remove (name : string)
| Truncate (fd : File) (size : Z)
| Sync (fd : File)
| Close (fd : File)
| Now
| DeleteItemOnDisk (item : FileInfo)
| DeleteDirOnDisk (dir : string)
| UpdateLocalsFromScanning (batch : list FileInfo)
| SetState (st : folderState)
| StartPullScanner
| CloseScanChan
| SchedulePull.

Definition history : Type := list event.

(** ** A state monad over the history, with panics *)

Inductive outcome (St A : Type) : Type :=
| Returns (a : A) (s : St) (h : history)
| Panics (h : history).

Arguments Returns {St A} a s h.
Arguments Panics {St A} h.

Definition M (St A : Type) : Type := St -> history -> outcome St A.

Definition ret {St A} (a : A) : M St A := fun s h => Returns a s h.

Definition bind {St A B} (m : M St A) (k : A -> M St B) : M St B :=
  fun s h =>
    match m s h with
    | Returns a s' h' => k a s' h'
    | Panics h' => Panics h'
    end.

Declare Scope go_scope.
Delimit Scope go_scope with go.
Notation "x <- m ;; k" := (bind m (fun x => k))
  (at level 61, m at next level, right associativity) : go_scope.
Notation "m ;;; k" := (bind m (fun _ => k))
  (at level 61, right associativity) : go_scope.
Local Open Scope go_scope.

Definition get {St} : M St St := fun s h => Returns s s h.
Definition put {St} (s : St) : M St unit := fun _ h => Returns tt s h.
Definition modify {St} (f : St -> St) : M St unit :=
  fun s h => Returns tt (f s) h.
Definition panic {St A} : M St A := fun _ h => Panics h.

(** Run a computation on a component [Sub] of the state. *)
Definition zoom {St Sub A} (proj : St -> Sub) (inj : Sub -> St -> St)
    (m : M Sub A) : M St A :=
  fun s h =>
    match m (proj s) h with
    | Returns a q h' => Returns a (inj q s) h'
    | Panics h' => Panics h'
    end.

(** ** The block-to-byte estimate *)

(** [blocksToSize]: all [int64(...)] conversions are from the 64-bit [int]
    and leave the value unchanged. *)
Definition blocksToSize (size num : Z) : Z :=
  if num <? 2 then GoInt.quot size 2
  else GoInt.add (GoInt.mul (GoInt.sub num 1) size) (GoInt.quot size 2).

(** ** The shared puller state *)

(** [lockedWriterAt] guards one open descriptor. *)
Record lockedWriterAt : Type := { fd : File }.

Record sharedPullerState : Type := {
  (* Immutable *)
  file : FileInfo;
  folder : string;
  tempName : string;
  realName : string;
  reused : Z;
  ignorePerms : bool;
  hasCurFile : bool;
  curFile : FileInfo;
  sparse : bool;
  created : Time;
  (* Mutable *)
  err : option error;
  writer : option lockedWriterAt;
  copyTotal : Z;
  pullTotal : Z;
  copyOrigin : Z;
  copyOriginShifted : Z;
  copyNeeded : Z;
  pullNeeded : Z;
  updated : Time;
  closed : bool;
  available : list Z;
  availableUpdated : Time
}.

(** Assignments to the mutable fields. *)
Definition set_err (x : option error) (s : sharedPullerState) :
  sharedPullerState :=
  {| file := file s; folder := folder s; tempName := tempName s;
     realName := realName s; reused := reused s;
     ignorePerms := ignorePerms s; hasCurFile := hasCurFile s;
     curFile := curFile s; sparse := sparse s; created := created s;
     err := x; writer := writer s; copyTotal := copyTotal s;
     pullTotal := pullTotal s; copyOrigin := copyOrigin s;
     copyOriginShifted := copyOriginShifted s; copyNeeded := copyNeeded s;
     pullNeeded := pullNeeded s; updated := updated s; closed := closed s;
     available := available s; availableUpdated := availableUpdated s |}.

Definition set_writer (x : option lockedWriterAt) (s : sharedPullerState) :
  sharedPullerState :=
  {| file := file s; folder := folder s; tempName := tempName s;
     realName := realName s; reused := reused s;
     ignorePerms := ignorePerms s; hasCurFile := hasCurFile s;
     curFile := curFile s; sparse := sparse s; created := created s;
     err := err s; writer := x; copyTotal := copyTotal s;
     pullTotal := pullTotal s; copyOrigin := copyOrigin s;
     copyOriginShifted := copyOriginShifted s; copyNeeded := copyNeeded s;
     pullNeeded := pullNeeded s; updated := updated s; closed := closed s;
     available := available s; availableUpdated := availableUpdated s |}.

Definition set_copyTotal (x : Z) (s : sharedPullerState) :
  sharedPullerState :=
  {| file := file s; folder := folder s; tempName := tempName s;
     realName := realName s; reused := reused s;
     ignorePerms := ignorePerms s; hasCurFile := hasCurFile s;
     curFile := curFile s; sparse := sparse s; created := created s;
     err := err s; writer := writer s; copyTotal := x;
     pullTotal := pullTotal s; copyOrigin := copyOrigin s;
     copyOriginShifted := copyOriginShifted s; copyNeeded := copyNeeded s;
     pullNeeded := pullNeeded s; updated := updated s; closed := closed s;
     available := available s; availableUpdated := availableUpdated s |}.

Definition set_pullTotal (x : Z) (s : sharedPullerState) :
  sharedPullerState :=
  {| file := file s; folder := folder s; tempName := tempName s;
     realName := realName s; reused := reused s;
     ignorePerms := ignorePerms s; hasCurFile := hasCurFile s;
     curFile := curFile s; sparse := sparse s; created := created s;
     err := err s; writer := writer s; copyTotal := copyTotal s;
     pullTotal := x; copyOrigin := copyOrigin s;
     copyOriginShifted := copyOriginShifted s; copyNeeded := copyNeeded s;
     pullNeeded := pullNeeded s; updated := updated s; closed := closed s;
     available := available s; availableUpdated := availableUpdated s |}.

Definition set_copyOrigin (x : Z) (s : sharedPullerState) :
  sharedPullerState :=
  {| file := file s; folder := folder s; tempName := tempName s;
     realName := realName s; reused := reused s;
     ignorePerms := ignorePerms s; hasCurFile := hasCurFile s;
     curFile := curFile s; sparse := sparse s; created := created s;
     err := err s; writer := writer s; copyTotal := copyTotal s;
     pullTotal := pullTotal s; copyOrigin := x;
     copyOriginShifted := copyOriginShifted s; copyNeeded := copyNeeded s;
     pullNeeded := pullNeeded s; updated := updated s; closed := closed s;
     available := available s; availableUpdated := availableUpdated s |}.

Definition set_copyOriginShifted (x : Z) (s : sharedPullerState) :
  sharedPullerState :=
  {| file := file s; folder := folder s; tempName := tempName s;
     realName := realName s; reused := reused s;
     ignorePerms := ignorePerms s; hasCurFile := hasCurFile s;
     curFile := curFile s; sparse := sparse s; created := created s;
     err := err s; writer := writer s; copyTotal := copyTotal s;
     pullTotal := pullTotal s; copyOrigin := copyOrigin s;
     copyOriginShifted := x; copyNeeded := copyNeeded s;
     pullNeeded := pullNeeded s; updated := updated s; closed := closed s;
     available := available s; availableUpdated := availableUpdated s |}.

Definition set_copyNeeded (x : Z) (s : sharedPullerState) :
  sharedPullerState :=
  {| file := file s; folder := folder s; tempName := tempName s;
     realName := realName s; reused := reused s;
     ignorePerms := ignorePerms s; hasCurFile := hasCurFile s;
     curFile := curFile s; sparse := sparse s; created := created s;
     err := err s; writer := writer s; copyTotal := copyTotal s;
     pullTotal := pullTotal s; copyOrigin := copyOrigin s;
     copyOriginShifted := copyOriginShifted s; copyNeeded := x;
     pullNeeded := pullNeeded s; updated := updated s; closed := closed s;
     available := available s; availableUpdated := availableUpdated s |}.

Definition set_pullNeeded (x : Z) (s : sharedPullerState) :
  sharedPullerState :=
  {| file := file s; folder := folder s; tempName := tempName s;
     realName := realName s; reused := reused s;
     ignorePerms := ignorePerms s; hasCurFile := hasCurFile s;
     curFile := curFile s; sparse := sparse s; created := created s;
     err := err s; writer := writer s; copyTotal := copyTotal s;
     pullTotal := pullTotal s; copyOrigin := copyOrigin s;
     copyOriginShifted := copyOriginShifted s; copyNeeded := copyNeeded s;
     pullNeeded := x; updated := updated s; closed := closed s;
     available := available s; availableUpdated := availableUpdated s |}.

Definition set_updated (x : Time) (s : sharedPullerState) :
  sharedPullerState :=
  {| file := file s; folder := folder s; tempName := tempName s;
     realName := realName s; reused := reused s;
     ignorePerms := ignorePerms s; hasCurFile := hasCurFile s;
     curFile := curFile s; sparse := sparse s; created := created s;
     err := err s; writer := writer s; copyTotal := copyTotal s;
     pullTotal := pullTotal s; copyOrigin := copyOrigin s;
     copyOriginShifted := copyOriginShifted s; copyNeeded := copyNeeded s;
     pullNeeded := pullNeeded s; updated := x; closed := closed s;
     available := available s; availableUpdated := availableUpdated s |}.

Definition set_closed (x : bool) (s : sharedPullerState) :
  sharedPullerState :=
  {| file := file s; folder := folder s; tempName := tempName s;
     realName := realName s; reused := reused s;
     ignorePerms := ignorePerms s; hasCurFile := hasCurFile s;
     curFile := curFile s; sparse := sparse s; created := created s;
     err := err s; writer := writer s; copyTotal := copyTotal s;
     pullTotal := pullTotal s; copyOrigin := copyOrigin s;
     copyOriginShifted := copyOriginShifted s; copyNeeded := copyNeeded s;
     pullNeeded := pullNeeded s; updated := updated s; closed := x;
     available := available s; availableUpdated := availableUpdated s |}.

Definition set_available (x : list Z) (s : sharedPullerState) :
  sharedPullerState :=
  {| file := file s; folder := folder s; tempName := tempName s;
     realName := realName s; reused := reused s;
     ignorePerms := ignorePerms s; hasCurFile := hasCurFile s;
     curFile := curFile s; sparse := sparse s; created := created s;
     err := err s; writer := writer s; copyTotal := copyTotal s;
     pullTotal := pullTotal s; copyOrigin := copyOrigin s;
     copyOriginShifted := copyOriginShifted s; copyNeeded := copyNeeded s;
     pullNeeded := pullNeeded s; updated := updated s; closed := closed s;
     available := x; availableUpdated := availableUpdated s |}.

Definition set_availableUpdated (x : Time) (s : sharedPullerState) :
  sharedPullerState :=
  {| file := file s; folder := folder s; tempName := tempName s;
     realName := realName s; reused := reused s;
     ignorePerms := ignorePerms s; hasCurFile := hasCurFile s;
     curFile := curFile s; sparse := sparse s; created := created s;
     err := err s; writer := writer s; copyTotal := copyTotal s;
     pullTotal := pullTotal s; copyOrigin := copyOrigin s;
     copyOriginShifted := copyOriginShifted s; copyNeeded := copyNeeded s;
     pullNeeded := pullNeeded s; updated := updated s; closed := closed s;
     available := available s; availableUpdated := x |}.

(** A momentary state representing the progress of the puller. *)
Record pullerProgress : Type := {
  Total : Z;
  Reused : Z;
  CopiedFromOrigin : Z;
  CopiedFromOriginShifted : Z;
  CopiedFromElsewhere : Z;
  Pulled : Z;
  Pulling : Z;
  BytesDone : Z;
  BytesTotal : Z
}.

(** ** What the platform and the rest of the program provide *)

(** [inWritableDir] is not part of the source. It is handed a callback and
    the filesystem and can do no more than call them, so it is given by
    what it does with them: finish with a result, run the callback and go
    on from its result, or make a call and go on from its answer. *)
Inductive wrapped : Type :=
| Finish (r : option error)
| RunCallback (k : option error -> wrapped)
| Perform (c : event) (k : option error -> wrapped).

(** The answers of the outside world, as functions of the calls made so
    far, and the declarations that the source uses but does not contain. *)
Class Platform : Type := {
  (** the error a call returns ([None] for [nil]) *)
  answer_err : history -> event -> option error;
  (** the descriptor a successful [OpenFile] returns *)
  answer_fd : history -> File;
  (** what [time.Now] returns *)
  answer_now : history -> Time;
  (** [protocol.FlagLocalReceiveOnly] *)
  FlagLocalReceiveOnly : Z;
  (** [FileInfo.BlockSize] and [FileInfo.ProtoSize] *)
  BlockSize : FileInfo -> Z;
  ProtoSize : FileInfo -> Z;
  (** the batch limits of package model *)
  maxBatchSizeFiles : Z;
  maxBatchSizeBytes : Z;
  (** the open flags of lib/fs *)
  OptReadWrite : Z;
  OptCreate : Z;
  OptExclusive : Z;
  (** what [inWritableDir] does for a path and [ignorePerms], given the
      calls made so far *)
  inWritableDirPlan : history -> string -> bool -> wrapped
}.

Section Calls.

Context {P : Platform} {St : Type}.

(** A call whose result is an error value. *)
Definition call (c : event) : M St (option error) :=
  fun s h => Returns (answer_err h c) s (h ++ [c]).

(** A call whose result the code drops or that has none. *)
Definition notify (c : event) : M St unit :=
  fun s h => Returns tt s (h ++ [c]).

(** [fs.OpenFile]: a descriptor or an error. *)
Definition openFile (name : string) (flags mode : Z) : M St (error + File) :=
  fun s h =>
    match answer_err h (OpenFile name flags mode) with
    | Some e => Returns (inl e) s (h ++ [OpenFile name flags mode])
    | None => Returns (inr (answer_fd h)) s (h ++ [OpenFile name flags mode])
    end.

(** [time.Now()]. *)
Definition now : M St Time :=
  fun s h => Returns (answer_now h) s (h ++ [Now]).

End Calls.

(** ** Methods of the shared puller state *)

Section SharedPullerState.

Context {P : Platform}.

(** [inWritableDir(fn, fs, path, ignorePerms)], following its plan. *)
Fixpoint runWrapped (w : wrapped) (fn : M sharedPullerState (option error)) :
  M sharedPullerState (option error) :=
  match w with
  | Finish r => ret r
  | RunCallback k => r <- fn ;; runWrapped (k r) fn
  | Perform c k => r <- call c ;; runWrapped (k r) fn
  end.

Definition inWritableDir (fn : string -> M sharedPullerState (option error))
    (path : string) (ignorePerms : bool) : M sharedPullerState (option error) :=
  fun s h => runWrapped (inWritableDirPlan h path ignorePerms) (fn path) s h.

(** [SyncClose]: the result of [Sync] is only logged. *)
Definition SyncClose (w : lockedWriterAt) : M sharedPullerState (option error) :=
  _ <- call (Sync (fd w)) ;;
  call (Close (fd w)).

Definition failLocked (e : option error) : M sharedPullerState unit :=
  s <- get ;;
  match err s, e with
  | None, Some _ => put (set_err e s)
  | _, _ => ret tt
  end.

Definition tempFileInWritableDir (_ : string) :
  M sharedPullerState (option error) :=
  s <- get ;;
  let mode :=
    if ignorePerms s then 438 (* 0666 *)
    else Z.lor (Permissions (file s)) 384 (* 0600 *) in
  let flags :=
    if reused s =? 0 then Z.lor OptReadWrite (Z.lor OptCreate OptExclusive)
    else OptReadWrite in
  prepared <-
    (if reused s =? 0 then ret None
     else if negb (ignorePerms s) then
       e1 <- call (Chmod (tempName s) mode) ;;
       match e1 with
       | Some e => ret (Some (errors.Wrap e "setting perms on temp file"))
       | None =>
         e2 <- call (Lchown (tempName s) (Uid (file s)) (Gid (file s))) ;;
         match e2 with
         | Some e => ret (Some (errors.Wrap e "setting owner on temp file"))
         | None => ret None
         end
       end
     else ret None) ;;
  match prepared with
  | Some e => ret (Some e)
  | None =>
    r <- openFile (tempName s) flags mode ;;
    match r with
    | inl e => ret (Some (errors.Wrap e "opening temp file"))
    | inr d =>
      notify (Hide (tempName s)) ;;;
      truncated <-
        (if sparse s && negb (IsSymlink (file s))
         then call (Truncate d (Size (file s)))
         else ret None) ;;
      match truncated with
      | Some e =>
        if 0 <? reused s then
          notify (Close d) ;;;
          notify (Remove (tempName s)) ;;;
          ret (Some e)
        else
          modify (set_writer (Some {| fd := d |})) ;;;
          ret None
      | None =>
        modify (set_writer (Some {| fd := d |})) ;;;
        ret None
      end
    end
  end.

Definition tempFile : M sharedPullerState (option lockedWriterAt * option error) :=
  s <- get ;;
  match err s with
  | Some e => ret (None, Some e)
  | None =>
    match writer s with
    | Some w => ret (Some w, None)
    | None =>
      r <- inWritableDir tempFileInWritableDir (tempName s) (ignorePerms s) ;;
      match r with
      | Some e => failLocked (Some e) ;;; ret (None, Some e)
      | None => s' <- get ;; ret (writer s', None)
      end
    end
  end.

Definition fail (e : option error) : M sharedPullerState unit :=
  failLocked e.

Definition failed : M sharedPullerState (option error) :=
  s <- get ;; ret (err s).

(** [int32(block.Offset / int64(s.file.BlockSize()))]; dividing by zero
    panics. *)
Definition blockIndex (block : BlockInfo) : M sharedPullerState Z :=
  s <- get ;;
  let size := BlockSize (file s) in
  if size =? 0 then panic
  else ret (GoInt.wrap32 (GoInt.quot (Offset block) size)).

Definition copyDone (block : BlockInfo) : M sharedPullerState unit :=
  modify (fun s => set_copyNeeded (GoInt.sub (copyNeeded s) 1) s) ;;;
  t <- now ;;
  modify (set_updated t) ;;;
  i <- blockIndex block ;;
  modify (fun s => set_available (available s ++ [i]) s) ;;;
  t' <- now ;;
  modify (set_availableUpdated t').

Definition copiedFromOrigin : M sharedPullerState unit :=
  modify (fun s => set_copyOrigin (GoInt.add (copyOrigin s) 1) s) ;;;
  t <- now ;;
  modify (set_updated t).

Definition copiedFromOriginShifted : M sharedPullerState unit :=
  modify (fun s => set_copyOrigin (GoInt.add (copyOrigin s) 1) s) ;;;
  modify (fun s =>
    set_copyOriginShifted (GoInt.add (copyOriginShifted s) 1) s) ;;;
  t <- now ;;
  modify (set_updated t).

Definition pullStarted : M sharedPullerState unit :=
  modify (fun s => set_copyTotal (GoInt.sub (copyTotal s) 1) s) ;;;
  modify (fun s => set_copyNeeded (GoInt.sub (copyNeeded s) 1) s) ;;;
  modify (fun s => set_pullTotal (GoInt.add (pullTotal s) 1) s) ;;;
  modify (fun s => set_pullNeeded (GoInt.add (pullNeeded s) 1) s) ;;;
  t <- now ;;
  modify (set_updated t).

Definition pullDone (block : BlockInfo) : M sharedPullerState unit :=
  modify (fun s => set_pullNeeded (GoInt.sub (pullNeeded s) 1) s) ;;;
  t <- now ;;
  modify (set_updated t) ;;;
  i <- blockIndex block ;;
  modify (fun s => set_available (available s ++ [i]) s) ;;;
  t' <- now ;;
  modify (set_availableUpdated t').

Definition finalClose : M sharedPullerState (bool * option error) :=
  s <- get ;;
  if closed s then ret (false, None)
  else if negb (GoInt.add (pullNeeded s) (copyNeeded s) =? 0)
          && match err s with None => true | Some _ => false end
  then ret (false, None)
  else
    match writer s with
    | Some w =>
      e <- SyncClose w ;;
      s1 <- get ;;
      match e, err s1 with
      | Some _, None => put (set_err e s1)
      | _, _ => ret tt
      end ;;;
      modify (set_writer None)
    | None => ret tt
    end ;;;
    modify (set_closed true) ;;;
    s2 <- get ;;
    notify (Unhide (tempName s2)) ;;;
    ret (true, err s2).

(** The two locals of [Progress]. *)
Definition progressTotal (s : sharedPullerState) : Z :=
  GoInt.add (GoInt.add (reused s) (copyTotal s)) (pullTotal s).

Definition progressDone (s : sharedPullerState) : Z :=
  GoInt.sub (GoInt.sub (progressTotal s) (copyNeeded s)) (pullNeeded s).

(** [Progress]; the literal does not name [CopiedFromOriginShifted]. *)
Definition Progress (s : sharedPullerState) : pullerProgress :=
  let total := progressTotal s in
  let done := progressDone s in
  {| Total := total;
     Reused := reused s;
     CopiedFromOrigin := copyOrigin s;
     CopiedFromOriginShifted := 0;
     CopiedFromElsewhere :=
       GoInt.sub (GoInt.sub (copyTotal s) (copyNeeded s)) (copyOrigin s);
     Pulled := GoInt.sub (pullTotal s) (pullNeeded s);
     Pulling := pullNeeded s;
     BytesTotal := blocksToSize (BlockSize (file s)) total;
     BytesDone := blocksToSize (BlockSize (file s)) done |}.

Definition Updated (s : sharedPullerState) : Time := updated s.
Definition AvailableUpdated (s : sharedPullerState) : Time :=
  availableUpdated s.
Definition Available (s : sharedPullerState) : list Z := available s.

End SharedPullerState.

(** ** Clients of the shared puller state *)

(** The methods a worker can call on the state, and what each returns. *)
Inductive method : Type :=
| CallTempFile
| CallFail (e : option error)
| CallFailed
| CallCopyDone (block : BlockInfo)
| CallCopiedFromOrigin
| CallCopiedFromOriginShifted
| CallPullStarted
| CallPullDone (block : BlockInfo)
| CallFinalClose
| CallProgress
| CallUpdated
| CallAvailableUpdated
| CallAvailable.

Inductive value : Type :=
| VUnit
| VWriter (w : option lockedWriterAt) (e : option error)
| VError (e : option error)
| VClosed (ok : bool) (e : option error)
| VProgress (p : pullerProgress)
| VTime (t : Time)
| VBlocks (l : list Z).

Section Clients.

Context {P : Platform}.

Definition invoke (m : method) : M sharedPullerState value :=
  match m with
  | CallTempFile => r <- tempFile ;; ret (VWriter (fst r) (snd r))
  | CallFail e => fail e ;;; ret VUnit
  | CallFailed => e <- failed ;; ret (VError e)
  | CallCopyDone b => copyDone b ;;; ret VUnit
  | CallCopiedFromOrigin => copiedFromOrigin ;;; ret VUnit
  | CallCopiedFromOriginShifted => copiedFromOriginShifted ;;; ret VUnit
  | CallPullStarted => pullStarted ;;; ret VUnit
  | CallPullDone b => pullDone b ;;; ret VUnit
  | CallFinalClose => r <- finalClose ;; ret (VClosed (fst r) (snd r))
  | CallProgress => s <- get ;; ret (VProgress (Progress s))
  | CallUpdated => s <- get ;; ret (VTime (Updated s))
  | CallAvailableUpdated => s <- get ;; ret (VTime (AvailableUpdated s))
  | CallAvailable => s <- get ;; ret (VBlocks (Available s))
  end.

(** A sequence of calls: the values returned, up to the first panic, and
    how the sequence ended. *)
Fixpoint invokeAll (ms : list method) (s : sharedPullerState) (h : history) :
  list value * outcome sharedPullerState unit :=
  match ms with
  | [] => ([], Returns tt s h)
  | m :: ms' =>
    match invoke m s h with
    | Returns v s' h' =>
      let (vs, o) := invokeAll ms' s' h' in (v :: vs, o)
    | Panics h' => ([], Panics h')
    end
  end.

(** How many calls of [finalClose] returned [true]. *)
Fixpoint closings (vs : list value) : nat :=
  match vs with
  | [] => O
  | VClosed true _ :: vs' => S (closings vs')
  | _ :: vs' => closings vs'
  end.

End Clients.

(** ** The delete queue *)

(** [deleteQueue]; the handler and the scan channel are the outside world. *)
Record deleteQueue : Type := {
  ignores : string -> ignore.Result;
  dirs : list string
}.

Definition set_dirs (x : list string) (q : deleteQueue) : deleteQueue :=
  {| ignores := ignores q; dirs := x |}.

(** [sort.Sort(sort.Reverse(sort.StringSlice(dirs)))]: the strings in
    descending order, [Less(i, j)] being [dirs[j] < dirs[i]] on bytes. The
    sorting routine is Go's; it is given here by insertion, and
    [sortReverse_unique] shows that no other arrangement is descending. *)
Fixpoint insertReverse (x : string) (l : list string) : list string :=
  match l with
  | [] => [x]
  | y :: l' => if String.ltb x y then y :: insertReverse x l' else x :: l
  end.

Fixpoint sortReverse (l : list string) : list string :=
  match l with
  | [] => []
  | x :: l' => insertReverse x (sortReverse l')
  end.

Section DeleteQueue.

Context {P : Platform}.

Definition handle (fi : FileInfo) : M deleteQueue (bool * option error) :=
  q <- get ;;
  let ign := ignores q (Name fi) in
  if ignore.IsIgnored ign && negb (ignore.IsDeletable ign) then
    ret (false, None)
  else if IsDirectory fi then
    put (set_dirs (dirs q ++ [Name fi]) q) ;;;
    ret (false, None)
  else
    e <- call (DeleteItemOnDisk fi) ;;
    ret (true, e).

(** The loop of [flush] over the sorted directories. *)
Fixpoint flushLoop (ds : list string) (firstError : option error)
    (deleted : list string) : M deleteQueue (list string * option error) :=
  match ds with
  | [] => ret (deleted, firstError)
  | dir :: ds' =>
    e <- call (DeleteDirOnDisk dir) ;;
    match e with
    | None => flushLoop ds' firstError (deleted ++ [dir])
    | Some _ =>
      match firstError with
      | None => flushLoop ds' e deleted
      | Some _ => flushLoop ds' firstError deleted
      end
    end
  end.

Definition flush : M deleteQueue (list string * option error) :=
  modify (fun q => set_dirs (sortReverse (dirs q)) q) ;;;
  q <- get ;;
  flushLoop (dirs q) None [].

End DeleteQueue.

(** ** Reverting a receive-only folder *)

(** What [Revert] reads of the folder: its short device ID, its ignore
    matcher and the records the file set holds for the local device. *)
Record receiveOnlyFolder : Type := {
  shortID : Z;
  f_ignores : string -> ignore.Result;
  fset : list FileInfo
}.

(** The locals of [Revert] that its loops update. *)
Record revertLocals : Type := {
  delQueue : deleteQueue;
  batch : list FileInfo;
  batchSizeBytes : Z
}.

Definition set_delQueue (x : deleteQueue) (l : revertLocals) : revertLocals :=
  {| delQueue := x; batch := batch l; batchSizeBytes := batchSizeBytes l |}.

Definition set_batch (x : list FileInfo) (l : revertLocals) : revertLocals :=
  {| delQueue := delQueue l; batch := x; batchSizeBytes := batchSizeBytes l |}.

Definition set_batchSizeBytes (x : Z) (l : revertLocals) : revertLocals :=
  {| delQueue := delQueue l; batch := batch l; batchSizeBytes := x |}.

(** Modelled from the spec: [WithHave] of the metadata store (lib/db)
    visits the locally-known records in store order until the visitor
    returns false. *)
Fixpoint WithHave {St : Type} (records : list FileInfo)
    (fn : FileInfo -> M St bool) : M St unit :=
  match records with
  | [] => ret tt
  | fi :: rest =>
    continue <- fn fi ;;
    if continue then WithHave rest fn else ret tt
  end.

(** [len(v.Counters) == 1 && v.Counters[0].ID == id]. *)
Definition onlyCounterOf (id : Z) (v : Vector) : bool :=
  match Counters v with
  | [c] => ID c =? id
  | _ => false
  end.

(** The record that replaces a deleted file. *)
Definition fileTombstone (id : Z) (fi : FileInfo) : FileInfo :=
  {| Name := Name fi;
     Type_ := Type_ fi;
     Size := 0;
     Permissions := Permissions fi;
     ModifiedS := ModifiedS fi;
     ModifiedNs := ModifiedNs fi;
     ModifiedBy := id;
     Deleted := true;
     Version := emptyVector;
     Gid := Gid fi;
     Uid := Uid fi;
     LocalFlags := 0 |}.

(** The record that stands for a deleted directory. *)
Definition dirTombstone (id : Z) (t : Time) (dir : string) : FileInfo :=
  {| Name := dir;
     Type_ := FileInfoTypeDirectory;
     Size := 0;
     Permissions := 0;
     ModifiedS := Unix t;
     ModifiedNs := 0;
     ModifiedBy := id;
     Deleted := true;
     Version := emptyVector;
     Gid := 0;
     Uid := 0;
     LocalFlags := 0 |}.

Section Revert.

Context {P : Platform}.

(** The version reset of a record that has history in the cluster. *)
Definition resetVersion (fi : FileInfo) : FileInfo :=
  set_LocalFlags (GoInt.andnot (LocalFlags fi) FlagLocalReceiveOnly)
    (set_Version emptyVector fi).

(** The end of the visitor: append to the batch, and hand the batch over
    when it is full. *)
Definition toBatch (fi : FileInfo) : M revertLocals unit :=
  modify (fun l => set_batch (batch l ++ [fi]) l) ;;;
  modify (fun l =>
    set_batchSizeBytes (GoInt.add (batchSizeBytes l) (ProtoSize fi)) l) ;;;
  l <- get ;;
  if (maxBatchSizeFiles <=? Z.of_nat (List.length (batch l)))
     || (maxBatchSizeBytes <=? batchSizeBytes l)
  then
    notify (UpdateLocalsFromScanning (batch l)) ;;;
    modify (set_batch []) ;;;
    modify (set_batchSizeBytes 0)
  else ret tt.

(** The visitor that [Revert] passes to [WithHave]. *)
Definition revertVisit (f : receiveOnlyFolder) (fi : FileInfo) :
  M revertLocals bool :=
  if negb (IsReceiveOnlyChanged FlagLocalReceiveOnly fi) then ret true
  else if onlyCounterOf (shortID f) (Version fi) then
    r <- zoom delQueue set_delQueue (handle fi) ;;
    match snd r with
    | Some _ => ret true
    | None =>
      if negb (fst r) then ret true
      else toBatch (fileTombstone (shortID f) fi) ;;; ret true
    end
  else
    toBatch (resetVersion fi) ;;; ret true.

(** [Revert] up to the flush of the delete queue. *)
Definition revertFiles (f : receiveOnlyFolder) : M revertLocals unit :=
  WithHave (fset f) (revertVisit f) ;;;
  l <- get ;;
  (if 0 <? Z.of_nat (List.length (batch l))
   then notify (UpdateLocalsFromScanning (batch l))
   else ret tt) ;;;
  modify (set_batch []) ;;;
  modify (set_batchSizeBytes 0).

(** [Revert] from the flush of the delete queue on: the queued
    directories. The error of [flush] is only logged. *)
Definition revertDirs (f : receiveOnlyFolder) : M revertLocals unit :=
  r <- zoom delQueue set_delQueue flush ;;
  t <- now ;;
  modify (fun l =>
    fold_left (fun l' dir =>
      set_batch (batch l' ++ [dirTombstone (shortID f) t dir]) l')
      (fst r) l) ;;;
  l <- get ;;
  if 0 <? Z.of_nat (List.length (batch l))
  then notify (UpdateLocalsFromScanning (batch l))
  else ret tt.

Definition revertLocals0 (f : receiveOnlyFolder) : revertLocals :=
  {| delQueue := {| ignores := f_ignores f; dirs := [] |};
     batch := [];
     batchSizeBytes := 0 |}.

(** [Revert]; the deferred calls run last, in reverse order. *)
Definition Revert (f : receiveOnlyFolder) (h : history) :
  outcome revertLocals unit :=
  (notify (SetState FolderScanning) ;;;
   notify StartPullScanner ;;;
   revertFiles f ;;;
   revertDirs f ;;;
   notify SchedulePull ;;;
   notify CloseScanChan ;;;
   notify (SetState FolderIdle)) (revertLocals0 f) h.

End Revert.

(** ** Example platforms *)

(** A platform whose calls fail as [fails] says; [inWritableDir] finds the
    directory writable and only runs the callback. *)
Definition scripted (fails : history -> event -> option error) : Platform :=
  {| answer_err := fails;
     answer_fd := fun h => List.length h;
     answer_now := fun h => {| Unix := Z.of_nat (List.length h) |};
     FlagLocalReceiveOnly := 8;
     BlockSize := fun _ => 131072;
     ProtoSize := fun _ => 64;
     maxBatchSizeFiles := 1000;
     maxBatchSizeBytes := 256000;
     OptReadWrite := 2;
     OptCreate := 64;
     OptExclusive := 128;
     inWritableDirPlan := fun _ _ _ => RunCallback Finish |}.

(** The platform on which every call succeeds. *)
Definition quiet : Platform := scripted (fun _ _ => None).

Definition exampleFile : FileInfo :=
  {| Name := "a.txt"; Type_ := FileInfoTypeFile; Size := 1000;
     Permissions := 420; ModifiedS := 1500000000; ModifiedNs := 7;
     ModifiedBy := 42; Deleted := false;
     Version := {| Counters := [{| ID := 42; Value := 1 |}] |};
     Gid := 100; Uid := 1000; LocalFlags := 8 |}.

(** A fresh state for a file of four blocks, of which one is reused, two
    are to be copied and one is to be pulled. *)
Definition exampleState : sharedPullerState :=
  {| file := exampleFile; folder := "default"; tempName := ".syncthing.a.txt.tmp";
     realName := "a.txt"; reused := 1; ignorePerms := false;
     hasCurFile := false; curFile := exampleFile; sparse := true;
     created := {| Unix := 0 |};
     err := None; writer := None; copyTotal := 2; pullTotal := 1;
     copyOrigin := 0; copyOriginShifted := 0; copyNeeded := 2;
     pullNeeded := 1; updated := {| Unix := 0 |}; closed := false;
     available := []; availableUpdated := {| Unix := 0 |} |}.

(** The platform on which truncating a file fails. *)
Definition noSpace : error := errors.New "no space left on device".

Definition truncateFails : Platform :=
  scripted (fun _ c =>
    match c with
    | Truncate _ _ => Some noSpace
    | _ => None
    end).

(** One block copied, one reclassified from copy to pull, one pulled, one
    copied from the original file. *)
Definition exampleCalls : list method :=
  [CallCopyDone {| Offset := 131072; BlockInfo_Size := 131072 |};
   CallPullStarted;
   CallPullDone {| Offset := 262144; BlockInfo_Size := 131072 |};
   CallCopiedFromOrigin].

(** * Properties *)

(** ** Wrap-around arithmetic *)

Section WrapFacts.

Import GoInt.

Lemma wrap_small x : in_int x -> wrap x = x.
Proof.
  unfold in_int, wrap, min_int, max_int. intros H.
  rewrite Z.mod_small; lia.
Qed.

Lemma wrap_range x : in_int (wrap x).
Proof.
  unfold in_int, wrap, min_int, max_int.
  pose proof (Z.mod_pos_bound (x + 2 ^ 63) (2 ^ 64)). lia.
Qed.

(** [wrap] only depends on the residue modulo [2^64]. *)
Lemma wrap_congr x y k : x = y + k * 2 ^ 64 -> wrap x = wrap y.
Proof.
  intros ->. unfold wrap.
  replace (y + k * 2 ^ 64 + 2 ^ 63) with (y + 2 ^ 63 + k * 2 ^ 64) by ring.
  now rewrite Z.mod_add by lia.
Qed.

Lemma wrap_decomp x : exists k, wrap x = x + k * 2 ^ 64.
Proof.
  unfold wrap. exists (- ((x + 2 ^ 63) / 2 ^ 64)).
  pose proof (Z.div_mod (x + 2 ^ 63) (2 ^ 64)). lia.
Qed.

Lemma wrap_wrap x : wrap (wrap x) = wrap x.
Proof. apply wrap_small, wrap_range. Qed.

Lemma wrap_add_l x y : wrap (wrap x + y) = wrap (x + y).
Proof.
  destruct (wrap_decomp x) as [k ->].
  apply (wrap_congr _ _ k). ring.
Qed.

Lemma wrap_add_r x y : wrap (x + wrap y) = wrap (x + y).
Proof. rewrite Z.add_comm, wrap_add_l. f_equal. ring. Qed.

Lemma wrap_sub_l x y : wrap (wrap x - y) = wrap (x - y).
Proof.
  destruct (wrap_decomp x) as [k ->].
  apply (wrap_congr _ _ k). ring.
Qed.

Lemma wrap_sub_r x y : wrap (x - wrap y) = wrap (x - y).
Proof.
  destruct (wrap_decomp y) as [k ->].
  apply (wrap_congr _ _ (- k)). ring.
Qed.

Lemma wrap_mul_l x y : wrap (wrap x * y) = wrap (x * y).
Proof.
  destruct (wrap_decomp x) as [k ->].
  apply (wrap_congr _ _ (k * y)). ring.
Qed.

End WrapFacts.

(** ** The block-to-byte estimate *)

Section BlocksToSize.

Import GoInt.

Lemma half_in_int size : in_int size -> in_int (Z.quot size 2).
Proof.
  unfold in_int, min_int, max_int. intros H.
  pose proof (Z.quot_rem' size 2) as E.
  pose proof (Z.rem_bound_abs size 2) as B.
  pose proof (Z.rem_bound_abs size 2 ltac:(lia)).
  assert (Z.abs (Z.rem size 2) < 2) by lia.
  lia.
Qed.

Lemma quot_half size : in_int size -> 0 < size -> GoInt.quot size 2 = size / 2.
Proof.
  intros Hr Hp. unfold GoInt.quot.
  rewrite wrap_small by now apply half_in_int.
  apply Z.quot_div_nonneg; lia.
Qed.

(** C9: for a positive block size the estimate is [size/2] below two
    blocks and [(num-1)*size + size/2] from two blocks on, the latter in
    64-bit arithmetic, and exactly whenever that value is an [int64]. *)
Theorem blocksToSize_spec (size num : Z) :
  in_int size -> in_int num -> 0 < size ->
  (num < 2 -> blocksToSize size num = size / 2) /\
  (2 <= num -> blocksToSize size num = wrap ((num - 1) * size + size / 2)) /\
  (2 <= num -> in_int ((num - 1) * size + size / 2) ->
     blocksToSize size num = (num - 1) * size + size / 2) /\
  blocksToSize size 0 = size / 2 /\
  blocksToSize size 1 = size / 2 /\
  blocksToSize size 5 = wrap (4 * size + size / 2).
Proof.
  intros Hs Hn Hp.
  assert (Hge : forall n, in_int n -> 2 <= n ->
            blocksToSize size n = wrap ((n - 1) * size + size / 2)).
  { intros n Hr Hn2. unfold blocksToSize.
    destruct (Z.ltb_spec n 2); [lia|].
    rewrite quot_half by assumption.
    unfold add, mul, sub.
    rewrite (wrap_small (n - 1)) by (unfold in_int, min_int, max_int in *; lia).
    now rewrite wrap_add_l. }
  assert (Hlt : forall n, n < 2 -> blocksToSize size n = size / 2).
  { intros n Hn2. unfold blocksToSize.
    destruct (Z.ltb_spec n 2); [|lia].
    now apply quot_half. }
  repeat split.
  - apply Hlt.
  - now apply Hge.
  - intros H2 Hfit. rewrite Hge by assumption. now apply wrap_small.
  - apply Hlt; lia.
  - apply Hlt; lia.
  - rewrite Hge; [reflexivity | unfold in_int, min_int, max_int; lia | lia].
Qed.

Lemma blocksToSize_spec_witness :
  blocksToSize 131072 0 = 65536 /\
  blocksToSize 131072 1 = 65536 /\
  blocksToSize 131072 5 = 4 * 131072 + 65536.
Proof.
  assert (Hs : in_int 131072) by (unfold in_int, min_int, max_int; lia).
  assert (Hn : in_int 5) by (unfold in_int, min_int, max_int; lia).
  destruct (blocksToSize_spec 131072 5 Hs Hn ltac:(lia))
    as (_ & _ & _ & H0 & H1 & H5).
  split; [|split].
  - exact H0.
  - exact H1.
  - rewrite H5. reflexivity.
Defined.

End BlocksToSize.

(** ** Tactics for the monad *)

Ltac unfold_monad :=
  unfold bind, ret, get, put, modify, notify, call, openFile, now, panic, zoom.

Ltac unfold_monad_in H :=
  unfold bind, ret, get, put, modify, notify, call, openFile, now, panic, zoom
    in H.

(** Split on a [match] (or [if]) of a hypothesis whose scrutinee holds no
    further [match]. *)
Ltac case_in H :=
  match type of H with
  | context [match ?x with _ => _ end] =>
    lazymatch x with
    | context [match _ with _ => _ end] => fail
    | _ => destruct x eqn:?
    end
  end.

Ltac returned H := inversion H; subst; clear H.

(** ** The sticky error *)

Section StickyError.

Context {P : Platform}.

Lemma failLocked_first s h e :
  err s = None -> failLocked (Some e) s h = Returns tt (set_err (Some e) s) h.
Proof. intros H. unfold failLocked. unfold_monad. now rewrite H. Qed.

Lemma failLocked_later s h e old :
  err s = Some old -> failLocked e s h = Returns tt s h.
Proof. intros H. unfold failLocked. unfold_monad. now rewrite H. Qed.

Lemma failLocked_nil s h : failLocked None s h = Returns tt s h.
Proof. unfold failLocked. unfold_monad. now destruct (err s). Qed.

(** No method changes an error that is set. *)
Lemma invoke_err_sticky m s h e v s' h' :
  err s = Some e -> invoke m s h = Returns v s' h' -> err s' = Some e.
Proof.
  intros He H.
  destruct m; cbn in H;
    unfold tempFile, fail, failLocked, failed, copyDone, copiedFromOrigin,
      copiedFromOriginShifted, pullStarted, pullDone, blockIndex,
      finalClose, SyncClose in H;
    unfold_monad_in H; cbn in H; try rewrite He in H; cbn in H;
    repeat (case_in H; try discriminate); returned H; cbn; congruence.
Qed.

(** C4: the sticky error is write-once. With an error set, [fail] changes
    nothing whatever it is given; [fail(nil)] changes nothing at all; on a
    state without error [fail(e)] records [e], which a second [fail] then
    retains; [failed] returns the error; and no other method overwrites an
    error that is set. *)
Theorem fail_write_once (s : sharedPullerState) (h : history) :
  (forall e1 e2, err s = Some e1 -> fail e2 s h = Returns tt s h) /\
  fail None s h = Returns tt s h /\
  (forall e, err s = None ->
     fail (Some e) s h = Returns tt (set_err (Some e) s) h /\
     err (set_err (Some e) s) = Some e /\
     forall e2 h2,
       fail e2 (set_err (Some e) s) h2 = Returns tt (set_err (Some e) s) h2) /\
  failed s h = Returns (err s) s h /\
  (forall m e v s' h',
     err s = Some e -> invoke m s h = Returns v s' h' -> err s' = Some e).
Proof.
  split; [|split; [|split; [|split]]].
  - intros e1 e2 H. now apply failLocked_later with e1.
  - apply failLocked_nil.
  - intros e H. split; [|split].
    + now apply failLocked_first.
    + reflexivity.
    + intros e2 h2. now apply failLocked_later with e.
  - reflexivity.
  - intros m e v s' h'. apply invoke_err_sticky.
Qed.

End StickyError.

(** ** Progress *)

Ltac wrap_lia :=
  unfold GoInt.in_int, GoInt.add, GoInt.sub in *;
  unfold GoInt.wrap, GoInt.max_int, GoInt.min_int in *;
  change (2 ^ 64) with 18446744073709551616 in *;
  change (2 ^ 63) with 9223372036854775808 in *;
  Z.to_euclidean_division_equations; lia.

Section Progress.

Context {P : Platform}.

(** [s'] is [s] up to its error and its writer. *)
Definition same_but_handle (s s' : sharedPullerState) : Prop :=
  exists e w, s' = set_writer w (set_err e s).

Lemma same_but_handle_refl s : same_but_handle s s.
Proof. exists (err s), (writer s). now destruct s. Qed.

Lemma same_but_handle_trans s1 s2 s3 :
  same_but_handle s1 s2 -> same_but_handle s2 s3 -> same_but_handle s1 s3.
Proof.
  intros (e & w & ->) (e' & w' & ->). exists e', w'. now destruct s1.
Qed.

Lemma same_but_handle_err s e : same_but_handle s (set_err e s).
Proof. exists e, (writer s). now destruct s. Qed.

Lemma same_but_handle_writer s w : same_but_handle s (set_writer w s).
Proof. exists (err s), w. now destruct s. Qed.

Lemma tempFileInWritableDir_frame path s h r s' h' :
  tempFileInWritableDir path s h = Returns r s' h' -> same_but_handle s s'.
Proof.
  intros H. unfold tempFileInWritableDir in H. unfold_monad_in H. cbn in H.
  repeat (case_in H; try discriminate); returned H;
    auto using same_but_handle_refl, same_but_handle_writer.
Qed.

Lemma runWrapped_frame w fn :
  (forall s h r s' h', fn s h = Returns r s' h' -> same_but_handle s s') ->
  forall s h r s' h',
    runWrapped w fn s h = Returns r s' h' -> same_but_handle s s'.
Proof.
  intros Hfn. induction w as [r0 | k IH | c k IH]; intros s h r s' h' H; cbn in H.
  - returned H. apply same_but_handle_refl.
  - unfold bind in H. destruct (fn s h) as [r1 s1 h1 | h1] eqn:E; [|discriminate].
    apply same_but_handle_trans with s1; [now apply Hfn in E | now apply IH in H].
  - unfold bind, call in H. now apply IH in H.
Qed.

Lemma tempFile_frame s h r s' h' :
  tempFile s h = Returns r s' h' -> same_but_handle s s'.
Proof.
  intros H. unfold tempFile in H. unfold bind at 1 in H. unfold get at 1 in H.
  destruct (err s) eqn:He.
  { returned H. apply same_but_handle_refl. }
  destruct (writer s) eqn:Hw.
  { returned H. apply same_but_handle_refl. }
  unfold bind at 1 in H. unfold inWritableDir in H.
  destruct (runWrapped _ _ s h) as [r1 s1 h1 | h1] eqn:E; [|discriminate].
  apply runWrapped_frame in E; [|intros *; apply tempFileInWritableDir_frame].
  apply same_but_handle_trans with s1; [assumption|].
  destruct r1; unfold failLocked in H; unfold_monad_in H.
  - destruct (err s1); returned H;
      auto using same_but_handle_refl, same_but_handle_err.
  - returned H. apply same_but_handle_refl.
Qed.

(** Every method leaves the total alone and either leaves the number of
    blocks done alone or adds one to it. *)
Lemma invoke_progress m s h v s' h' :
  invoke m s h = Returns v s' h' ->
  progressTotal s' = progressTotal s /\
  (progressDone s' = progressDone s \/
   progressDone s' = GoInt.wrap (progressDone s + 1)).
Proof.
  intros H. destruct m.
  { cbn in H. unfold bind in H.
    destruct (tempFile s h) as [r1 s1 h1 | h1] eqn:E; [|discriminate].
    returned H. apply tempFile_frame in E. destruct E as (e & w & ->).
    split; [|left]; reflexivity. }
  all: cbn in H;
    unfold fail, failLocked, failed, copyDone, copiedFromOrigin,
      copiedFromOriginShifted, pullStarted, pullDone, blockIndex,
      finalClose, SyncClose in H;
    unfold_monad_in H; cbn in H;
    repeat (case_in H; try discriminate); returned H;
    unfold progressDone, progressTotal; cbn;
    (split; [wrap_lia | first [left; wrap_lia | right; wrap_lia]]).
Qed.

Lemma invokeAll_progress ms : forall s h s' h',
  snd (invokeAll ms s h) = Returns tt s' h' ->
  progressTotal s' = progressTotal s /\
  (progressDone s + Z.of_nat (List.length ms) <= GoInt.max_int ->
   progressDone s <= progressDone s').
Proof.
  induction ms as [|m ms IH]; intros s h s' h' H; cbn in H.
  - returned H. split; [reflexivity | lia].
  - destruct (invoke m s h) as [v s1 h1 | h1] eqn:E; [|discriminate].
    destruct (invokeAll ms s1 h1) as [vs o] eqn:E2. cbn in H. subst o.
    apply invoke_progress in E. destruct E as [Et Ed].
    specialize (IH s1 h1 s' h'). rewrite E2 in IH. specialize (IH eq_refl).
    destruct IH as [IHt IHd]. split; [congruence|].
    intros Hfit. cbn [List.length] in Hfit.
    assert (Hr : GoInt.in_int (progressDone s)).
    { unfold progressDone, GoInt.sub. apply wrap_range. }
    destruct Ed as [Ed | Ed].
    + rewrite Ed in IHd. lia.
    + assert (progressDone s1 = progressDone s + 1).
      { rewrite Ed. clear - Hr Hfit. revert Hr Hfit.
        generalize (progressDone s). intros. wrap_lia. }
      lia.
Qed.

End Progress.

Section Snapshots.

Context {P : Platform}.

(** The fields of a snapshot that [Progress] fills in from the counters. *)
Lemma Progress_fields (s : sharedPullerState) :
  Total (Progress s) =
    GoInt.add (GoInt.add (reused s) (copyTotal s)) (pullTotal s) /\
  Reused (Progress s) = reused s /\
  CopiedFromOrigin (Progress s) = copyOrigin s /\
  CopiedFromElsewhere (Progress s) =
    GoInt.sub (GoInt.sub (copyTotal s) (copyNeeded s)) (copyOrigin s) /\
  Pulled (Progress s) = GoInt.sub (pullTotal s) (pullNeeded s) /\
  Pulling (Progress s) = pullNeeded s /\
  BytesTotal (Progress s) =
    blocksToSize (BlockSize (file s)) (Total (Progress s)) /\
  BytesDone (Progress s) =
    blocksToSize (BlockSize (file s))
      (GoInt.sub (GoInt.sub (Total (Progress s)) (copyNeeded s))
         (pullNeeded s)).
Proof. repeat split. Qed.

(** C5: the total of a snapshot is [reused + copyTotal + pullTotal] and
    its count of finished blocks is [total - copyNeeded - pullNeeded];
    whatever methods are called between two snapshots, the total is the
    same in both and, as long as the count cannot overflow, the count of
    finished blocks of the second is not below that of the first. *)
Theorem progress_invariant (s : sharedPullerState) (h : history)
    (ms : list method) (s' : sharedPullerState) (h' : history) :
  snd (invokeAll ms s h) = Returns tt s' h' ->
  Total (Progress s) =
    GoInt.add (GoInt.add (reused s) (copyTotal s)) (pullTotal s) /\
  progressDone s =
    GoInt.sub (GoInt.sub (Total (Progress s)) (copyNeeded s)) (pullNeeded s) /\
  BytesDone (Progress s) = blocksToSize (BlockSize (file s)) (progressDone s) /\
  Total (Progress s') = Total (Progress s) /\
  (progressDone s + Z.of_nat (List.length ms) <= GoInt.max_int ->
   progressDone s <= progressDone s').
Proof.
  intros H. apply invokeAll_progress in H. destruct H as [Ht Hd].
  split; [reflexivity|]. split; [reflexivity|]. split; [reflexivity|].
  split; [exact Ht | exact Hd].
Qed.

End Snapshots.

(** On the example calls three blocks are done where one was. *)
Lemma progress_invariant_witness :
  exists s' h',
    snd (@invokeAll quiet exampleCalls exampleState []) = Returns tt s' h' /\
    progressDone exampleState = 1 /\
    progressDone s' = 3 /\
    progressDone exampleState <= progressDone s'.
Proof.
  eexists. eexists. split; [reflexivity|].
  split; [reflexivity|]. split; [reflexivity|].
  eapply (fun H => proj2 (proj2 (proj2 (proj2
    (@progress_invariant quiet exampleState [] exampleCalls _ _ H))))).
  - reflexivity.
  - vm_compute. discriminate.
Defined.

(** C2: [Progress] fills in every field of the snapshot from the counters
    except [CopiedFromOriginShifted], which it leaves at zero whatever the
    counter [copyOriginShifted] holds: after one shifted copy the counter
    is 1 and the snapshot reports 0. *)
Theorem Progress_omits_copyOriginShifted :
  (forall (P : Platform) (s : sharedPullerState),
     CopiedFromOriginShifted (Progress s) = 0) /\
  exists s' h',
    @copiedFromOriginShifted quiet exampleState [] = Returns tt s' h' /\
    copyOrigin s' = 1 /\
    copyOriginShifted s' = 1 /\
    CopiedFromOrigin (@Progress quiet s') = 1 /\
    CopiedFromOriginShifted (@Progress quiet s') = 0.
Proof.
  split; [reflexivity|].
  eexists. eexists. split; [reflexivity|]. repeat split.
Qed.

(** ** Closing the temporary file *)

Section FinalClose.

Context {P : Platform}.

(** The calls by which [finalClose] closes the writer, if there is one. *)
Definition closeCalls (w : option lockedWriterAt) : list event :=
  match w with
  | Some w => [Sync (fd w); Close (fd w)]
  | None => []
  end.

(** What closing it returns, after the history [h]. *)
Definition closeError (w : option lockedWriterAt) (h : history) :
  option error :=
  match w with
  | Some w => answer_err (h ++ [Sync (fd w)]) (Close (fd w))
  | None => None
  end.

(** The error after [finalClose]: the one already there, else the one of
    the close. *)
Definition errorAfterClose (s : sharedPullerState) (h : history) :
  option error :=
  match err s with
  | Some e => Some e
  | None => closeError (writer s) h
  end.

Lemma finalClose_closed s h :
  closed s = true -> finalClose s h = Returns (false, None) s h.
Proof. intros H. unfold finalClose. unfold_monad. now rewrite H. Qed.

Lemma finalClose_pending s h :
  closed s = false ->
  GoInt.add (copyNeeded s) (pullNeeded s) <> 0 ->
  err s = None ->
  finalClose s h = Returns (false, None) s h.
Proof.
  intros Hc Hn He. unfold finalClose. unfold_monad. rewrite Hc, He.
  unfold GoInt.add in *. rewrite (Z.add_comm (pullNeeded s)).
  destruct (Z.eqb_spec (GoInt.wrap (copyNeeded s + pullNeeded s)) 0);
    [contradiction | reflexivity].
Qed.

Lemma finalClose_closes s h :
  closed s = false ->
  GoInt.add (copyNeeded s) (pullNeeded s) = 0 \/ err s <> None ->
  finalClose s h =
    Returns (true, errorAfterClose s h)
      (set_closed true (set_writer None (set_err (errorAfterClose s h) s)))
      (h ++ closeCalls (writer s) ++ [Unhide (tempName s)]).
Proof.
  intros Hc Hready. unfold finalClose, SyncClose, errorAfterClose, closeError.
  unfold_monad. rewrite Hc.
  assert (Hgo : negb (GoInt.add (pullNeeded s) (copyNeeded s) =? 0)
                && match err s with None => true | Some _ => false end
                = false).
  { destruct Hready as [H0 | He].
    - unfold GoInt.add in *. rewrite (Z.add_comm (pullNeeded s)), H0.
      reflexivity.
    - destruct (err s); [apply andb_false_r | contradiction]. }
  rewrite Hgo.
  destruct s as [f fo tn rn ru ip hc cf sp cr e w ct pt co cos cn pn up cl av au].
  cbn in *. subst cl.
  destruct w as [w|]; cbn.
  - destruct (answer_err (h ++ [Sync (fd w)]) (Close (fd w))) as [ce|] eqn:E;
      destruct e as [e|]; cbn; rewrite <- ?app_assoc; cbn; reflexivity.
  - destruct e as [e|]; reflexivity.
Qed.

(** A closed state stays closed and [finalClose] does not return true on
    it; a call of [finalClose] that returns true leaves the state closed. *)
Lemma invoke_closed m s h v s' h' :
  invoke m s h = Returns v s' h' ->
  (closed s = true -> closed s' = true /\ closings [v] = O) /\
  (closings [v] = 1%nat -> closed s' = true).
Proof.
  intros H. destruct m.
  { cbn in H. unfold bind in H.
    destruct (tempFile s h) as [r1 s1 h1 | h1] eqn:E; [|discriminate].
    returned H. apply tempFile_frame in E. destruct E as (e & w & ->).
    cbn. split; [auto | discriminate]. }
  all: cbn in H;
    unfold fail, failLocked, failed, copyDone, copiedFromOrigin,
      copiedFromOriginShifted, pullStarted, pullDone, blockIndex,
      finalClose, SyncClose in H;
    unfold_monad_in H; cbn in H;
    repeat (case_in H; try discriminate); returned H; cbn;
    (split; [intros; try discriminate; try congruence; auto
            | intros; try discriminate; auto]).
Qed.

Lemma invokeAll_closings ms : forall s h,
  (closings (fst (invokeAll ms s h)) <= if closed s then 0 else 1)%nat.
Proof.
  induction ms as [|m ms IH]; intros s h; cbn.
  - destruct (closed s); lia.
  - destruct (invoke m s h) as [v s1 h1 | h1] eqn:E;
      [|cbn; destruct (closed s); lia].
    specialize (IH s1 h1).
    destruct (invokeAll ms s1 h1) as [vs o]. cbn [fst] in *.
    apply invoke_closed in E. destruct E as [Hstay Hclose].
    assert (Hv : (closings (v :: vs) = closings [v] + closings vs)%nat).
    { cbn. destruct v; try reflexivity. now destruct ok. }
    rewrite Hv.
    assert (Hle : (closings [v] <= 1)%nat).
    { cbn. destruct v; try lia. destruct ok; lia. }
    destruct (closed s) eqn:Hc.
    + destruct (Hstay eq_refl) as [Hc1 Hv0]. rewrite Hc1 in IH. lia.
    + destruct (Nat.eq_dec (closings [v]) 1) as [H1 | H1].
      * rewrite (Hclose H1) in IH. lia.
      * destruct (closed s1); lia.
Qed.

(** C1: on a closed state [finalClose] returns (false, nil) and makes no
    call; with work pending and no error it does the same; in every other
    case it syncs and closes the writer if there is one, keeps an error
    that was there and else records the one of the close, drops the
    writer, marks the state closed, unhides the temporary file and
    returns true with the error; and whatever methods are called, at most
    one call of [finalClose] returns true. *)
Theorem finalClose_spec (s : sharedPullerState) (h : history) :
  (closed s = true -> finalClose s h = Returns (false, None) s h) /\
  (closed s = false ->
   GoInt.add (copyNeeded s) (pullNeeded s) <> 0 ->
   err s = None ->
   finalClose s h = Returns (false, None) s h) /\
  (closed s = false ->
   GoInt.add (copyNeeded s) (pullNeeded s) = 0 \/ err s <> None ->
   exists s',
     finalClose s h =
       Returns (true, err s') s'
         (h ++ closeCalls (writer s) ++ [Unhide (tempName s)]) /\
     s' = set_closed true (set_writer None (set_err (err s') s)) /\
     writer s' = None /\
     closed s' = true /\
     err s' = match err s with
              | Some e => Some e
              | None => closeError (writer s) h
              end) /\
  (forall ms, (closings (fst (invokeAll ms s h)) <= 1)%nat).
Proof.
  split; [apply finalClose_closed|].
  split; [apply finalClose_pending|].
  split.
  - intros Hc Hready.
    exists (set_closed true
              (set_writer None (set_err (errorAfterClose s h) s))).
    split; [now apply finalClose_closes|]. repeat split.
  - intros ms. pose proof (invokeAll_closings ms s h).
    destruct (closed s); lia.
Qed.

End FinalClose.

(** ** The order of strings *)

Section StringOrder.

Lemma ascii_compare_refl (a : ascii) : Ascii.compare a a = Eq.
Proof. unfold Ascii.compare. apply N.compare_refl. Qed.

Lemma string_compare_refl (a : string) : String.compare a a = Eq.
Proof.
  induction a as [|c a IH]; cbn; [reflexivity|].
  now rewrite ascii_compare_refl.
Qed.

Lemma ascii_compare_lt_trans (a b c : ascii) :
  Ascii.compare a b = Lt -> Ascii.compare b c = Lt -> Ascii.compare a c = Lt.
Proof.
  unfold Ascii.compare. rewrite !N.compare_lt_iff. apply N.lt_trans.
Qed.

Lemma string_compare_lt_trans (a : string) : forall b c,
  String.compare a b = Lt -> String.compare b c = Lt ->
  String.compare a c = Lt.
Proof.
  induction a as [|x a IH]; intros [|y b] [|z c]; cbn;
    try discriminate; auto.
  destruct (Ascii.compare x y) eqn:Exy; try discriminate;
    destruct (Ascii.compare y z) eqn:Eyz; try discriminate; intros Hab Hbc.
  - apply Ascii.compare_eq_iff in Exy, Eyz. subst.
    rewrite ascii_compare_refl. now apply IH with b.
  - apply Ascii.compare_eq_iff in Exy. subst. now rewrite Eyz.
  - apply Ascii.compare_eq_iff in Eyz. subst. now rewrite Exy.
  - now rewrite (ascii_compare_lt_trans x y z).
Qed.

(** [descending a b]: [a] may stand before [b] in descending order. *)
Definition descending (a b : string) : Prop := String.leb b a = true.

Lemma leb_cases (a b : string) :
  String.leb a b = true <-> String.compare a b = Lt \/ a = b.
Proof.
  unfold String.leb. split.
  - destruct (String.compare a b) eqn:E; try discriminate; auto.
    right. now apply String.compare_eq_iff.
  - intros [-> | ->]; [reflexivity | now rewrite string_compare_refl].
Qed.

Lemma leb_trans (a b c : string) :
  String.leb a b = true -> String.leb b c = true -> String.leb a c = true.
Proof.
  rewrite !leb_cases. intros [Hab | ->] [Hbc | ->]; auto.
  left. now apply string_compare_lt_trans with b.
Qed.

Lemma ltb_leb_trans (a b c : string) :
  String.ltb a b = true -> String.leb b c = true ->
  String.compare a c = Lt.
Proof.
  unfold String.ltb. rewrite leb_cases.
  destruct (String.compare a b) eqn:E; try discriminate.
  intros _ [Hbc | ->]; [now apply string_compare_lt_trans with b | exact E].
Qed.

Lemma ltb_false_leb (a b : string) :
  String.ltb a b = false -> String.leb b a = true.
Proof.
  unfold String.ltb, String.leb. rewrite (String.compare_antisym a b).
  now destruct (String.compare b a).
Qed.

Lemma ltb_true_leb (a b : string) :
  String.ltb a b = true -> String.leb a b = true.
Proof.
  unfold String.ltb, String.leb. now destruct (String.compare a b).
Qed.

Lemma descending_trans (a b c : string) :
  descending a b -> descending b c -> descending a c.
Proof. unfold descending. intros H1 H2. now apply leb_trans with b. Qed.

End StringOrder.

(** ** Sorting in reverse *)

Section SortReverse.

Lemma insertReverse_perm x l : Permutation (x :: l) (insertReverse x l).
Proof.
  induction l as [|y l IH]; cbn; [reflexivity|].
  destruct (String.ltb x y); [|reflexivity].
  rewrite perm_swap. now apply perm_skip.
Qed.

Lemma sortReverse_perm l : Permutation l (sortReverse l).
Proof.
  induction l as [|x l IH]; cbn; [reflexivity|].
  rewrite <- insertReverse_perm. now apply perm_skip.
Qed.

Lemma insertReverse_sorted x l :
  StronglySorted descending l -> StronglySorted descending (insertReverse x l).
Proof.
  induction 1 as [|y l Hs IH Hall]; cbn.
  - repeat constructor.
  - destruct (String.ltb x y) eqn:E.
    + constructor; [exact IH|].
      rewrite <- insertReverse_perm. constructor; [|exact Hall].
      now apply ltb_true_leb.
    + constructor; [now constructor|].
      apply ltb_false_leb in E. constructor; [exact E|].
      rewrite Forall_forall in *. intros z Hz.
      apply descending_trans with y; [exact E | now apply Hall].
Qed.

Lemma sortReverse_sorted l : StronglySorted descending (sortReverse l).
Proof.
  induction l as [|x l IH]; cbn; [constructor | now apply insertReverse_sorted].
Qed.

(** Descending order leaves no choice. *)
Lemma descending_unique l : forall l',
  Permutation l l' ->
  StronglySorted descending l -> StronglySorted descending l' -> l = l'.
Proof.
  induction l as [|x l IH]; intros l' Hp Hs Hs'.
  - apply Permutation_nil in Hp. now subst.
  - destruct l' as [|y l'].
    { apply Permutation_sym, Permutation_nil in Hp. discriminate. }
    inversion Hs as [|? ? Hsl Hall]; subst.
    inversion Hs' as [|? ? Hsl' Hall']; subst.
    assert (x = y) as ->.
    { assert (Hx : In x (y :: l')) by (rewrite <- Hp; now left).
      assert (Hy : In y (x :: l)) by (rewrite Hp; now left).
      rewrite Forall_forall in Hall, Hall'.
      destruct Hx as [-> | Hx]; [reflexivity|].
      destruct Hy as [-> | Hy]; [reflexivity|].
      apply String.leb_antisym; [now apply Hall' | now apply Hall]. }
    f_equal. apply IH; [now apply Permutation_cons_inv in Hp | assumption..].
Qed.

Lemma sortReverse_unique l l' :
  Permutation l l' -> StronglySorted descending l' -> l' = sortReverse l.
Proof.
  intros Hp Hs. apply descending_unique; [|assumption|apply sortReverse_sorted].
  rewrite <- Hp. apply sortReverse_perm.
Qed.

(** In a descending list everything above [x] stands before every [x]. *)
Lemma descending_split x y l :
  StronglySorted descending l -> String.ltb x y = true ->
  exists l1 l2, l = l1 ++ l2 /\ ~ In x l1 /\ ~ In y l2.
Proof.
  intros Hs Hxy. induction Hs as [|z l Hs IH Hall].
  - exists [], []. cbn. auto.
  - destruct (String.ltb x z) eqn:E.
    + destruct IH as (l1 & l2 & -> & H1 & H2).
      exists (z :: l1), l2. split; [reflexivity|]. split; [|exact H2].
      intros [-> | Hin]; [|now apply H1].
      unfold String.ltb in E. now rewrite string_compare_refl in E.
    + exists [], (z :: l). split; [reflexivity|]. split; [now auto|].
      apply ltb_false_leb in E.
      assert (Hlow : forall w, In w (z :: l) -> String.leb w x = true).
      { intros w [-> | Hw]; [exact E|].
        rewrite Forall_forall in Hall. apply leb_trans with z; [|exact E].
        now apply Hall. }
      intros Hy. apply Hlow in Hy.
      pose proof (ltb_leb_trans x y x Hxy Hy) as Hlt.
      now rewrite string_compare_refl in Hlt.
Qed.

End SortReverse.

(** ** The delete queue *)

Section DeleteQueueFacts.

Context {P : Platform}.

(** X1: [handle] returns (false, nil) and changes nothing when the path
    is ignored and not deletable; otherwise, for a directory, it appends
    the path to the queued directories, makes no call and returns
    (false, nil); otherwise it calls [deleteItemOnDisk] at once and
    returns true with the error of that call. *)
Theorem handle_spec (fi : FileInfo) (q : deleteQueue) (h : history) :
  let ign := ignores q (Name fi) in
  (ignore.IsIgnored ign = true -> ignore.IsDeletable ign = false ->
   handle fi q h = Returns (false, None) q h) /\
  (ignore.IsIgnored ign = false \/ ignore.IsDeletable ign = true ->
   IsDirectory fi = true ->
   handle fi q h =
     Returns (false, None) (set_dirs (dirs q ++ [Name fi]) q) h) /\
  (ignore.IsIgnored ign = false \/ ignore.IsDeletable ign = true ->
   IsDirectory fi = false ->
   handle fi q h =
     Returns (true, answer_err h (DeleteItemOnDisk fi)) q
       (h ++ [DeleteItemOnDisk fi])).
Proof.
  cbv zeta. unfold handle. unfold_monad.
  split; [|split].
  - intros -> ->. reflexivity.
  - intros Hign ->.
    destruct Hign as [-> | ->]; [reflexivity|].
    now rewrite andb_false_r.
  - intros Hign ->.
    destruct Hign as [-> | ->]; [reflexivity|].
    now rewrite andb_false_r.
Qed.

(** What the deletions of the directories [ds], attempted in this order
    after the history [h], return. *)
Fixpoint dirOutcomes (ds : list string) (h : history) :
  list (string * option error) :=
  match ds with
  | [] => []
  | dir :: ds' =>
    (dir, answer_err h (DeleteDirOnDisk dir))
      :: dirOutcomes ds' (h ++ [DeleteDirOnDisk dir])
  end.

(** The directories whose deletion returned no error. *)
Fixpoint succeeded (os : list (string * option error)) : list string :=
  match os with
  | [] => []
  | (dir, None) :: os' => dir :: succeeded os'
  | (_, Some _) :: os' => succeeded os'
  end.

(** The first error among the outcomes. *)
Fixpoint firstFailure (os : list (string * option error)) : option error :=
  match os with
  | [] => None
  | (_, Some e) :: _ => Some e
  | (_, None) :: os' => firstFailure os'
  end.

Lemma flushLoop_spec ds : forall firstError deleted q h,
  flushLoop ds firstError deleted q h =
    Returns
      (deleted ++ succeeded (dirOutcomes ds h),
       match firstError with
       | Some e => Some e
       | None => firstFailure (dirOutcomes ds h)
       end)
      q (h ++ map DeleteDirOnDisk ds).
Proof.
  induction ds as [|dir ds IH]; intros firstError deleted q h; cbn.
  - unfold ret. rewrite !app_nil_r. now destruct firstError.
  - unfold bind, call.
    destruct (answer_err h (DeleteDirOnDisk dir)) as [e|] eqn:E.
    + destruct firstError as [fe|]; rewrite IH, <- app_assoc; reflexivity.
    + rewrite IH, <- !app_assoc. reflexivity.
Qed.

(** X2: [flush] attempts the queued directories in descending order of
    their names, each exactly once and whatever the earlier attempts
    returned; it returns those whose deletion returned no error and
    the first error returned. The descending arrangement is the only one
    there is, it puts every name above [x] before every [x], and it puts
    "a/b" before "a". *)
Theorem flush_spec (q : deleteQueue) (h : history) :
  let ds := sortReverse (dirs q) in
  let os := dirOutcomes ds h in
  flush q h =
    Returns (succeeded os, firstFailure os) (set_dirs ds q)
      (h ++ map DeleteDirOnDisk ds) /\
  Permutation (dirs q) ds /\
  StronglySorted descending ds /\
  (forall l, Permutation (dirs q) l -> StronglySorted descending l -> l = ds) /\
  (forall x y, String.ltb x y = true ->
     exists before after,
       ds = before ++ after /\ ~ In x before /\ ~ In y after) /\
  String.ltb "a"%string "a/b"%string = true /\
  sortReverse ["a"; "a/b"]%string = ["a/b"; "a"]%string.
Proof.
  cbv zeta. split; [|split; [|split; [|split; [|split]]]].
  - unfold flush. unfold_monad. cbn. now rewrite flushLoop_spec.
  - apply sortReverse_perm.
  - apply sortReverse_sorted.
  - intros l. apply sortReverse_unique.
  - intros x y. apply descending_split, sortReverse_sorted.
  - split; reflexivity.
Qed.

End DeleteQueueFacts.

(** The queue ["a"; "a/b"; "b"] on a platform that cannot delete "a/b":
    the attempts are "b", "a/b", "a" in this order, "b" and "a" are
    returned as deleted and the error of "a/b" is returned. *)
Example flush_example :
  let busy := errors.New "directory not empty" in
  let P := scripted (fun _ c =>
             match c with
             | DeleteDirOnDisk "a/b"%string => Some busy
             | _ => None
             end) in
  @flush P {| ignores := fun _ => {| ignore.IsIgnored := false;
                                     ignore.IsDeletable := false |};
              dirs := ["a"; "a/b"; "b"]%string |} [] =
  Returns (["b"; "a"]%string, Some busy)
    {| ignores := fun _ => {| ignore.IsIgnored := false;
                              ignore.IsDeletable := false |};
       dirs := ["b"; "a/b"; "a"]%string |}
    [DeleteDirOnDisk "b"; DeleteDirOnDisk "a/b"; DeleteDirOnDisk "a"].
Proof. reflexivity. Qed.

(** ** Creating the temporary file *)

Section TempFile.

Context {P : Platform}.

(** The mode and the flags that [tempFileInWritableDir] computes. *)
Definition tempMode (s : sharedPullerState) : Z :=
  if ignorePerms s then 438 else Z.lor (Permissions (file s)) 384.

Definition tempFlags (s : sharedPullerState) : Z :=
  if reused s =? 0 then Z.lor OptReadWrite (Z.lor OptCreate OptExclusive)
  else OptReadWrite.

(** The calls that make a reused file writable, when they are made. *)
Definition permCalls (s : sharedPullerState) : list event :=
  if (reused s =? 0) || ignorePerms s then []
  else [Chmod (tempName s) (tempMode s);
        Lchown (tempName s) (Uid (file s)) (Gid (file s))].

(** They all succeed after [h]. *)
Definition permCallsSucceed (s : sharedPullerState) (h : history) : Prop :=
  (reused s =? 0) || ignorePerms s = false ->
  answer_err h (Chmod (tempName s) (tempMode s)) = None /\
  answer_err (h ++ [Chmod (tempName s) (tempMode s)])
    (Lchown (tempName s) (Uid (file s)) (Gid (file s))) = None.

Definition openCall (s : sharedPullerState) : event :=
  OpenFile (tempName s) (tempFlags s) (tempMode s).

(** [tempFileInWritableDir] up to the truncation, when every call before
    it succeeds. *)
Lemma tempFileInWritableDir_opened path s h :
  permCallsSucceed s h ->
  answer_err (h ++ permCalls s) (openCall s) = None ->
  tempFileInWritableDir path s h =
    (let d := answer_fd (h ++ permCalls s) in
     let h1 := h ++ permCalls s ++ [openCall s; Hide (tempName s)] in
     if sparse s && negb (IsSymlink (file s)) then
       match answer_err h1 (Truncate d (Size (file s))) with
       | Some e =>
         if 0 <? reused s then
           Returns (Some e) s
             (h1 ++ [Truncate d (Size (file s)); Close d;
                     Remove (tempName s)])
         else
           Returns None (set_writer (Some {| fd := d |}) s)
             (h1 ++ [Truncate d (Size (file s))])
       | None =>
         Returns None (set_writer (Some {| fd := d |}) s)
           (h1 ++ [Truncate d (Size (file s))])
       end
     else Returns None (set_writer (Some {| fd := d |}) s) h1).
Proof.
  unfold permCallsSucceed, permCalls, openCall, tempFlags, tempMode.
  intros Hperm Hopen. unfold tempFileInWritableDir. unfold_monad. cbn.
  destruct (reused s =? 0) eqn:Hr; cbn in *.
  - rewrite ?app_nil_r in *. rewrite Hopen.
    destruct (sparse s && negb (IsSymlink (file s))); cbn;
      rewrite <- ?app_assoc; cbn; [|reflexivity].
    destruct (answer_err _ (Truncate _ _)); cbn;
      [destruct (0 <? reused s)|]; rewrite <- ?app_assoc; reflexivity.
  - destruct (ignorePerms s) eqn:Hi; cbn in *.
    + rewrite ?app_nil_r in *. rewrite Hopen.
      destruct (sparse s && negb (IsSymlink (file s))); cbn;
        rewrite <- ?app_assoc; cbn; [|reflexivity].
      destruct (answer_err _ (Truncate _ _)); cbn;
        [destruct (0 <? reused s)|]; rewrite <- ?app_assoc; reflexivity.
    + destruct (Hperm eq_refl) as [Hc Hl]. rewrite Hc, Hl.
      rewrite <- app_assoc. cbn [app]. rewrite Hopen.
      destruct (sparse s && negb (IsSymlink (file s))); cbn;
        rewrite <- ?app_assoc; cbn; [|reflexivity].
      destruct (answer_err _ (Truncate _ _)); cbn;
        [destruct (0 <? reused s)|]; rewrite <- ?app_assoc; reflexivity.
Qed.

(** X3: when the temporary file has been opened and truncating it to the
    size of the file fails, [tempFileInWritableDir] goes on as if nothing
    had happened if no block is reused (the writer is set, nil is
    returned), and with reused blocks it closes the descriptor it just
    opened, removes the temporary file and returns the error of the
    truncation unwrapped, leaving the state as it was. *)
Theorem tempFileInWritableDir_truncate_fails (path : string)
    (s : sharedPullerState) (h : history) (e : error) :
  let d := answer_fd (h ++ permCalls s) in
  let h1 := h ++ permCalls s ++ [openCall s; Hide (tempName s)] in
  permCallsSucceed s h ->
  answer_err (h ++ permCalls s) (openCall s) = None ->
  sparse s = true ->
  IsSymlink (file s) = false ->
  answer_err h1 (Truncate d (Size (file s))) = Some e ->
  (reused s <= 0 ->
   tempFileInWritableDir path s h =
     Returns None (set_writer (Some {| fd := d |}) s)
       (h1 ++ [Truncate d (Size (file s))])) /\
  (0 < reused s ->
   tempFileInWritableDir path s h =
     Returns (Some e) s
       (h1 ++ [Truncate d (Size (file s)); Close d; Remove (tempName s)])).
Proof.
  cbv zeta. intros Hperm Hopen Hsparse Hsym Htrunc.
  rewrite (tempFileInWritableDir_opened path s h Hperm Hopen). cbv zeta.
  rewrite Hsparse, Hsym, Htrunc. cbn.
  split; intros Hr.
  - destruct (Z.ltb_spec 0 (reused s)); [lia | reflexivity].
  - destruct (Z.ltb_spec 0 (reused s)); [reflexivity | lia].
Qed.

(** An error leaves the state as it was; without error the writer is set. *)
Lemma tempFileInWritableDir_result path s h r s' h' :
  tempFileInWritableDir path s h = Returns r s' h' ->
  match r with
  | Some _ => s' = s
  | None => exists d, s' = set_writer (Some {| fd := d |}) s
  end.
Proof.
  intros H. unfold tempFileInWritableDir in H. unfold_monad_in H. cbn in H.
  repeat (case_in H; try discriminate); returned H; eauto.
Qed.

Lemma tempFileInWritableDir_err path s h r s' h' :
  tempFileInWritableDir path s h = Returns r s' h' -> err s' = err s.
Proof.
  intros H. apply tempFileInWritableDir_result in H.
  destruct r; [now subst | now destruct H as [d ->]].
Qed.

Lemma runWrapped_err w fn :
  (forall s h r s' h', fn s h = Returns r s' h' -> err s' = err s) ->
  forall s h r s' h',
    runWrapped w fn s h = Returns r s' h' -> err s' = err s.
Proof.
  intros Hfn. induction w as [r0 | k IH | c k IH]; intros s h r s' h' H;
    cbn in H.
  - now returned H.
  - unfold bind in H.
    destruct (fn s h) as [r1 s1 h1 | h1] eqn:E; [|discriminate].
    apply Hfn in E. apply IH in H. congruence.
  - unfold bind, call in H. now apply IH in H.
Qed.

(** X4: an error of [inWritableDir] becomes the error of the state:
    [tempFile] returns it without a writer, and from then on [tempFile]
    returns this error again without making any call, and [failed]
    returns it. *)
Theorem tempFile_error_sticks (s : sharedPullerState) (h : history)
    (e : error) (s1 : sharedPullerState) (h1 : history) :
  err s = None ->
  writer s = None ->
  inWritableDir tempFileInWritableDir (tempName s) (ignorePerms s) s h =
    Returns (Some e) s1 h1 ->
  tempFile s h = Returns (None, Some e) (set_err (Some e) s1) h1 /\
  (forall h2,
     tempFile (set_err (Some e) s1) h2 =
       Returns (None, Some e) (set_err (Some e) s1) h2) /\
  (forall h2,
     failed (set_err (Some e) s1) h2 =
       Returns (Some e) (set_err (Some e) s1) h2).
Proof.
  intros He Hw Hrun.
  assert (He1 : err s1 = None).
  { unfold inWritableDir in Hrun. apply runWrapped_err in Hrun;
      [congruence | intros *; apply tempFileInWritableDir_err]. }
  split; [|split].
  - unfold tempFile. unfold bind at 1. unfold get at 1. rewrite He, Hw.
    unfold bind at 1. rewrite Hrun. unfold failLocked. unfold_monad.
    now rewrite He1.
  - intros h2. reflexivity.
  - intros h2. reflexivity.
Qed.


End TempFile.

(** The example state reuses a block: the failed truncation is returned
    after the descriptor is closed and the file removed. *)
Lemma tempFileInWritableDir_truncate_fails_witness :
  @tempFileInWritableDir truncateFails "" exampleState [] =
    Returns (Some noSpace) exampleState
      [Chmod ".syncthing.a.txt.tmp" 420;
       Lchown ".syncthing.a.txt.tmp" 1000 100;
       OpenFile ".syncthing.a.txt.tmp" 2 420;
       Hide ".syncthing.a.txt.tmp";
       Truncate 2%nat 1000;
       Close 2%nat;
       Remove ".syncthing.a.txt.tmp"].
Proof.
  refine (proj2 (@tempFileInWritableDir_truncate_fails truncateFails ""
                   exampleState [] noSpace _ eq_refl eq_refl eq_refl eq_refl)
            _).
  - intros _. split; reflexivity.
  - reflexivity.
Defined.

Lemma tempFile_error_sticks_witness :
  @tempFile truncateFails exampleState [] =
    Returns (None, Some noSpace) (set_err (Some noSpace) exampleState)
      [Chmod ".syncthing.a.txt.tmp" 420;
       Lchown ".syncthing.a.txt.tmp" 1000 100;
       OpenFile ".syncthing.a.txt.tmp" 2 420;
       Hide ".syncthing.a.txt.tmp";
       Truncate 2%nat 1000;
       Close 2%nat;
       Remove ".syncthing.a.txt.tmp"].
Proof.
  exact (proj1 (@tempFile_error_sticks truncateFails exampleState [] noSpace
                  exampleState _ eq_refl eq_refl eq_refl)).
Defined.


Section TempFileCalls.

Context {P : Platform}.




(** X6: an error of [tempFileInWritableDir] is the wrapped error of the
    call that failed last (chmod, lchown or open), in which case no file
    is open, or the error of the truncation with reused blocks, in which
    case the descriptor has been closed and the file removed; the state
    is as it was in every case. *)
Theorem tempFileInWritableDir_error (path : string) (s : sharedPullerState)
    (h : history) (e : error) (s' : sharedPullerState) (h' : history) :
  tempFileInWritableDir path s h = Returns (Some e) s' h' ->
  s' = s /\
  ((exists c,
      answer_err h (Chmod (tempName s) (tempMode s)) = Some c /\
      h' = h ++ [Chmod (tempName s) (tempMode s)] /\
      e = errors.Wrap c "setting perms on temp file") \/
   (exists c,
      answer_err (h ++ [Chmod (tempName s) (tempMode s)])
        (Lchown (tempName s) (Uid (file s)) (Gid (file s))) = Some c /\
      h' = h ++ permCalls s /\
      e = errors.Wrap c "setting owner on temp file") \/
   (exists c,
      answer_err (h ++ permCalls s) (openCall s) = Some c /\
      h' = h ++ permCalls s ++ [openCall s] /\
      e = errors.Wrap c "opening temp file") \/
   (let d := answer_fd (h ++ permCalls s) in
    0 < reused s /\
    answer_err (h ++ permCalls s ++ [openCall s; Hide (tempName s)])
      (Truncate d (Size (file s))) = Some e /\
    h' = h ++ permCalls s ++
           [openCall s; Hide (tempName s); Truncate d (Size (file s));
            Close d; Remove (tempName s)])).
Proof.
  intros H. split; [exact (tempFileInWritableDir_result _ _ _ _ _ _ H)|].
  unfold tempFileInWritableDir in H. unfold_monad_in H. cbn in H.
  unfold permCalls, openCall, tempFlags, tempMode. cbv zeta.
  destruct (reused s =? 0) eqn:Hr; cbn [orb].
  - cbn in H. rewrite ?app_nil_r.
    destruct (answer_err h (OpenFile _ _ _)) as [c|] eqn:Eo.
    { returned H. right. right. left. exists c. auto. }
    destruct (sparse s && negb (IsSymlink (file s))); cbn in H;
      [|discriminate].
    destruct (answer_err _ (Truncate _ _)) as [c|] eqn:Et; [|discriminate].
    destruct (0 <? reused s) eqn:Hp; [|discriminate].
    apply Z.eqb_eq in Hr. apply Z.ltb_lt in Hp. lia.
  - destruct (ignorePerms s) eqn:Hi; cbn in H |- *.
    + rewrite ?app_nil_r.
      destruct (answer_err h (OpenFile _ _ _)) as [c|] eqn:Eo.
      { returned H. right. right. left. exists c. auto. }
      destruct (sparse s && negb (IsSymlink (file s))); cbn in H;
        [|discriminate].
      destruct (answer_err _ (Truncate _ _)) as [c|] eqn:Et; [|discriminate].
      destruct (0 <? reused s) eqn:Hp; [|discriminate].
      returned H. right. right. right. apply Z.ltb_lt in Hp.
      rewrite <- ?app_assoc in *. cbn in *. auto.
    + destruct (answer_err h (Chmod _ _)) as [c|] eqn:Ec.
      { returned H. left. exists c. auto. }
      destruct (answer_err _ (Lchown _ _ _)) as [c|] eqn:El.
      { returned H. right. left. exists c.
        rewrite <- ?app_assoc. cbn. auto. }
      rewrite <- ?app_assoc in H. cbn [app] in H.
      destruct (answer_err _ (OpenFile _ _ _)) as [c|] eqn:Eo.
      { returned H. right. right. left. exists c.
        rewrite <- ?app_assoc. cbn. auto. }
      destruct (sparse s && negb (IsSymlink (file s))); cbn in H;
        [|discriminate].
      destruct (answer_err _ (Truncate _ _)) as [c|] eqn:Et; [|discriminate].
      destruct (0 <? reused s) eqn:Hp; [|discriminate].
      returned H. right. right. right. apply Z.ltb_lt in Hp.
      rewrite <- ?app_assoc in *. cbn in *. auto.
Qed.


End TempFileCalls.

Lemma tempFileInWritableDir_error_witness :
  exists h',
    @tempFileInWritableDir truncateFails "" exampleState [] =
      Returns (Some noSpace) exampleState h' /\
    exampleState = exampleState.
Proof.
  eexists. split; [exact tempFileInWritableDir_truncate_fails_witness|].
  exact (proj1
    (@tempFileInWritableDir_error truncateFails "" exampleState []
       noSpace exampleState _ tempFileInWritableDir_truncate_fails_witness)).
Defined.


(** ** Reverting *)

Section RevertFacts.

Context {P : Platform}.

(** The records handed to [updateLocalsFromScanning] so far, followed by
    those waiting in the batch. *)
Definition handedOver (h : history) : list FileInfo :=
  flat_map (fun c =>
    match c with
    | UpdateLocalsFromScanning b => b
    | _ => []
    end) h.

Definition submitted (h : history) (l : revertLocals) : list FileInfo :=
  handedOver h ++ batch l.

Lemma handedOver_app h1 h2 :
  handedOver (h1 ++ h2) = handedOver h1 ++ handedOver h2.
Proof. unfold handedOver. now rewrite flat_map_app. Qed.

(** The batch is within the limits (an empty batch always is). *)
Definition batchWithinLimits (l : revertLocals) : Prop :=
  batch l = [] \/
  (Z.of_nat (List.length (batch l)) < maxBatchSizeFiles /\
   batchSizeBytes l < maxBatchSizeBytes).

(** A call that hands over a batch hands over at least one record and at
    most [maxBatchSizeFiles], if that is one or more. *)
Definition handsOverWithinLimits (c : event) : Prop :=
  match c with
  | UpdateLocalsFromScanning b =>
    1 <= Z.of_nat (List.length b) <= Z.max 1 maxBatchSizeFiles
  | _ => True
  end.

Definition deletion (c : event) : bool :=
  match c with
  | DeleteItemOnDisk _ | DeleteDirOnDisk _ => true
  | _ => false
  end.

Lemma toBatch_spec fi l h :
  exists l' calls,
    toBatch fi l h = Returns tt l' (h ++ calls) /\
    submitted (h ++ calls) l' = submitted h l ++ [fi] /\
    delQueue l' = delQueue l /\
    (calls = [] \/ calls = [UpdateLocalsFromScanning (batch l ++ [fi])]) /\
    batchWithinLimits l' /\
    (batchWithinLimits l -> Forall handsOverWithinLimits calls).
Proof.
  unfold toBatch. unfold_monad. cbn.
  destruct ((maxBatchSizeFiles <=? Z.of_nat (List.length (batch l ++ [fi])))
            || (maxBatchSizeBytes
                <=? GoInt.add (batchSizeBytes l) (ProtoSize fi))) eqn:E.
  - eexists. exists [UpdateLocalsFromScanning (batch l ++ [fi])].
    split; [reflexivity|]. unfold submitted. cbn.
    rewrite handedOver_app. cbn. rewrite !app_nil_r, app_assoc.
    split; [reflexivity|]. split; [reflexivity|]. split; [now right|].
    split; [now left|].
    intros Hlim. constructor; [|constructor]. cbn.
    rewrite length_app. cbn [List.length].
    destruct Hlim as [-> | [Hlen _]]; cbn [List.length]; lia.
  - eexists. exists []. rewrite app_nil_r.
    split; [reflexivity|]. unfold submitted. cbn.
    rewrite app_assoc. split; [reflexivity|]. split; [reflexivity|].
    split; [now left|]. split; [|constructor].
    right. cbn. apply orb_false_iff in E. destruct E as [E1 E2].
    apply Z.leb_gt in E1, E2. split; assumption.
Qed.

End RevertFacts.
